(** * explockout: exponential lockout overlay (explockout.c)

    A shallow embedding of the overlay's C code, and the properties of the
    design document checked against it.

    Conventions of the embedding:
    - a C [int] is a [Z]; conversions from the wider unsigned types of the
      host ([ber_len_t], [unsigned]) wrap through [to_int];
    - a [char] is an [ascii]; its value in a comparison goes through
      [char_val], which depends on the signedness of plain [char];
    - a [struct berval] is a [string]: [bv_len] is its length and [bv_val]
      its characters;
    - a linked list ([Attribute] through [a_next], [slap_callback] through
      [sc_next]) is a Rocq list, the NULL pointer being [[]];
    - a function of the overlay returns an [outcome]: it returns a value,
      it terminates the process ([exit]), or it leaves defined behaviour
      (NULL dereference, write outside a buffer, signed overflow);
    - [Debug(...)] only writes to the server log and is left out; the
      reads that its arguments make are kept. *)

From Stdlib Require Import ZArith List String Ascii Bool Lia.
Import ListNotations.
Open Scope Z_scope.

Set Implicit Arguments.

(** ** Outcomes of a C function *)

Inductive fault : Type :=
| NullDereference
| BufferOverflow
| SignedOverflow.

Inductive outcome (A : Type) : Type :=
| Returns (a : A)
| Exits (status : Z)
| Undefined (why : fault).

Arguments Returns {A} a.
Arguments Exits {A} status.
Arguments Undefined {A} why.

Definition bind {A B : Type} (c : outcome A) (k : A -> outcome B) : outcome B :=
  match c with
  | Returns a => k a
  | Exits status => Exits status
  | Undefined why => Undefined why
  end.

Notation "x <- c ;; k" := (bind c (fun x => k))
  (at level 61, c at next level, right associativity).

Definition EXIT_FAILURE : Z := 1.

(** ** Machine integers and characters *)

Definition INT_MIN : Z := - 2 ^ 31.
Definition INT_MAX : Z := 2 ^ 31 - 1.

(** Conversion of an integer to [int]: reduction modulo 2^32. *)
Definition to_int (z : Z) : Z := (z + 2 ^ 31) mod 2 ^ 32 - 2 ^ 31.

(** Whether plain [char] is signed is the platform's choice. *)
Class Platform : Type := { char_signed : bool }.

Definition signed_char_platform : Platform := {| char_signed := true |}.
Definition unsigned_char_platform : Platform := {| char_signed := false |}.

Definition char_val {P : Platform} (c : ascii) : Z :=
  let n := Z.of_N (N_of_ascii c) in
  if char_signed && (128 <=? n) then n - 256 else n.

Definition NUL : ascii := "000"%char.

(** ** Strings and buffers *)

Definition berval : Type := string.

Definition bv_val (b : berval) : list ascii := list_ascii_of_string b.
Definition bv_len (b : berval) : Z := Z.of_nat (String.length b).

(** The C string held by a buffer: its characters up to the first NUL. *)
Fixpoint cstring (buf : list ascii) : list ascii :=
  match buf with
  | [] => []
  | c :: buf' => if Ascii.eqb c NUL then [] else c :: cstring buf'
  end.

(** The [n] characters that [strncpy(dst, src, n)] writes: the characters of
    [src] up to its first NUL, then NULs up to [n]. *)
Fixpoint strncpy_chars (src : list ascii) (n : nat) : list ascii :=
  match n with
  | O => []
  | S n' =>
      match src with
      | [] => NUL :: strncpy_chars [] n'
      | c :: src' =>
          if Ascii.eqb c NUL then NUL :: strncpy_chars [] n'
          else c :: strncpy_chars src' n'
      end
  end.

Definition strncpy (dst src : list ascii) (n : nat) : list ascii :=
  strncpy_chars src n ++ skipn n dst.

(** [buf[i] = c] *)
Definition store (buf : list ascii) (i : nat) (c : ascii) : list ascii :=
  firstn i buf ++ c :: skipn (S i) buf.

(** ** The regular expression

    [regcomp(&regex, "pwdFailureTime", REG_ICASE)]: a basic regular
    expression with no special character and no anchor, so [regexec] finds
    a match when the subject contains the pattern, letter case ignored. *)

Definition REG_NOMATCH : Z := 1.

Definition tolower (c : ascii) : ascii :=
  let n := N_of_ascii c in
  if (65 <=? n)%N && (n <=? 90)%N then ascii_of_N (n + 32) else c.

Fixpoint prefix_icase (pattern subject : list ascii) : bool :=
  match pattern, subject with
  | [], _ => true
  | _ :: _, [] => false
  | p :: pattern', s :: subject' =>
      Ascii.eqb (tolower p) (tolower s) && prefix_icase pattern' subject'
  end.

Fixpoint contains_icase (pattern subject : list ascii) : bool :=
  prefix_icase pattern subject
  || match subject with
     | [] => false
     | _ :: subject' => contains_icase pattern subject'
     end.

Definition regex : list ascii := list_ascii_of_string "pwdFailureTime".

(** [regexec(&regex, desc, 0, NULL, 0)]: 0 on a match. *)
Definition regexec (desc : list ascii) : Z :=
  if contains_icase regex desc then 0 else REG_NOMATCH.

(** ** Attributes of an entry *)

Definition ATTR_NAME_MAX_LEN : Z := 150.

Record AttributeDescription : Type := { ad_cname : berval }.

Record Attribute : Type := {
  a_desc : AttributeDescription;
  a_vals : list berval
}.

(** [a_numvals] is the number of values of [a_vals]. *)
Definition a_numvals (a : Attribute) : Z := Z.of_nat (List.length (a_vals a)).

(** The copy of the attribute's name into [char desc[ATTR_NAME_MAX_LEN]]:
<<
    desc_val = attrs->a_desc->ad_cname.bv_val;
    desc_len = (int) attrs->a_desc->ad_cname.bv_len;
    strncpy(desc,desc_val,desc_len);
    desc[desc_len]='\0';
>>
    [strncpy] writes [desc_len] characters and the terminator is written at
    index [desc_len]: both stay inside [desc] only when
    [0 <= desc_len < ATTR_NAME_MAX_LEN]. *)
Definition copy_desc (a : Attribute) : outcome (list ascii) :=
  let desc_val := bv_val (ad_cname (a_desc a)) in
  let desc_len := to_int (bv_len (ad_cname (a_desc a))) in
  if (0 <=? desc_len) && (desc_len <? ATTR_NAME_MAX_LEN)
  then Returns (cstring (strncpy_chars desc_val (Z.to_nat desc_len)))
  else Undefined BufferOverflow.

(** ** countPwdFailureTime *)

Fixpoint countPwdFailureTime (attrs : list Attribute) : outcome Z :=
  match attrs with
  | [] => Undefined NullDereference          (* attrs->a_next on NULL *)
  | a :: a_next =>
      match a_next with
      | [] => Returns 0                       (* loop left, num still 0 *)
      | _ :: _ =>
          desc <- copy_desc a ;;
          if regexec desc =? 0
          then Returns (to_int (a_numvals a)) (* num = attrs->a_numvals; break *)
          else countPwdFailureTime a_next
      end
  end.

(** ** getLastPwdFailureTime *)

(** The loop over [j]: does the value win against [val]?
<<
    for(j=0 ; j<14 ; j++)
        if(value_val[j] > val[j]) { strncpy...; break; }
        else if(value_val[j] < val[j]) break;
>>
    [n] counts the iterations that remain. *)
Fixpoint value_is_superior {P : Platform}
    (value_val val : list ascii) (j n : nat) : bool :=
  match n with
  | O => false
  | S n' =>
      let c := char_val (nth j value_val NUL) in
      let d := char_val (nth j val NUL) in
      if c >? d then true
      else if c <? d then false
      else value_is_superior value_val val (S j) n'
  end.

Definition value_len (v : berval) : Z := to_int (bv_len v).

(** The body of the loop over [i], for one value. *)
Definition check_value {P : Platform} (val : list ascii) (v : berval)
  : outcome (list ascii) :=
  if value_len v <? 14
  then Exits EXIT_FAILURE
  else if value_is_superior (bv_val v) val 0 14
       then Returns (store (strncpy val (bv_val v) 14) 14 NUL)
       else Returns val.

Fixpoint check_values {P : Platform} (val : list ascii) (vals : list berval)
  : outcome (list ascii) :=
  match vals with
  | [] => Returns val
  | v :: vals' => val' <- check_value val v ;; check_values val' vals'
  end.

(** [val] is the content of [char val[15]] when the function is entered: the
    array is not initialised, so this is whatever the stack holds.  The
    function returns [void]; the result of the model is the final content
    of [val], which is what the function logs as the last failure. *)
Fixpoint getLastPwdFailureTime {P : Platform}
    (val : list ascii) (attrs : list Attribute) : outcome (list ascii) :=
  match attrs with
  | [] => Undefined NullDereference
  | a :: a_next =>
      match a_next with
      | [] => Returns val
      | _ :: _ =>
          desc <- copy_desc a ;;
          if regexec desc =? 0
          then
            let num := to_int (a_numvals a) in
            check_values val (firstn (Z.to_nat num) (a_vals a))
          else getLastPwdFailureTime val a_next
      end
  end.

(** ** The overlay's configuration *)

Record explockout_info : Type := {
  basetime : Z;    (* basetime to compute waiting time *)
  maxtime : Z      (* maximum waiting time at any time *)
}.

(** The waiting time as the comment above [struct explockout_info]
    documents it:
<<
    if (base time) ^ ( number of pwdFailureTime ) < max time
      waiting time = (base time) ^ ( number of pwdFailureTime )
    if (base time) ^ ( number of pwdFailureTime ) >= max time
      waiting time = max time
>>
    No function of the overlay computes it. *)
Definition waiting_time (lbi : explockout_info) (nb_pwdFailureTime : Z) : Z :=
  if basetime lbi ^ nb_pwdFailureTime <? maxtime lbi
  then basetime lbi ^ nb_pwdFailureTime
  else maxtime lbi.

(** ** The host's objects, as far as the overlay touches them *)

(** Constants of the host's headers ([ldap.h], [slap.h]). *)
Definition LDAP_SUCCESS : Z := 0.
Definition LDAP_NO_SUCH_OBJECT : Z := 32.
Definition SLAP_CB_CONTINUE : Z := 32768.   (* 0x8000 *)

Record BackendInfo : Type := {
  bi_type : string;
  bi_private : option explockout_info     (* NULL or the configuration *)
}.

Record Entry : Type := { e_attrs : list Attribute }.

Inductive response_function : Type :=
| explockout_bind_response_ptr
| host_response (id : Z).

Record slap_callback : Type := {
  sc_response : response_function;
  sc_private : option explockout_info
}.

Record Operation : Type := {
  bd_info : BackendInfo;                (* op->o_bd->bd_info *)
  o_req_ndn : berval;
  o_callback : list slap_callback       (* linked through sc_next *)
}.

Record SlapReply : Type := {
  sr_err : Z;
  sr_text : string
}.

Definition with_bd_info (op : Operation) (bi : BackendInfo) : Operation :=
  {| bd_info := bi; o_req_ndn := o_req_ndn op; o_callback := o_callback op |}.

Definition with_callback (op : Operation) (cbs : list slap_callback)
  : Operation :=
  {| bd_info := bd_info op; o_req_ndn := o_req_ndn op; o_callback := cbs |}.

(** The host's functions that the overlay calls.  Each may leave the
    operation changed, [op->o_bd->bd_info] included.  [be_entry_get_rw]
    gives its return code and the entry stored through [&e], which means
    nothing unless the code is [LDAP_SUCCESS]. *)
Class Host : Type := {
  be_entry_get_rw : Operation -> berval -> Z * Entry * Operation;
  be_entry_release_r : Operation -> Entry -> Operation
}.

(** What the overlay asks of the host during a callback, in order.
    [send_ldap_error] is the call that the source keeps in a comment
    ("send deny"); no live statement makes it. *)
Inductive host_call : Type :=
| Call_be_entry_get_rw (ndn : berval)
| Call_be_entry_release_r (e : Entry)
| Call_send_ldap_error (err : Z) (text : string).

(** The overlay has asked the host to send no error to the client. *)
Definition no_send (calls : list host_call) : Prop :=
  forall err text, ~ In (Call_send_ldap_error err text) calls.

(** ** explockout_bind_response *)

(** The configuration as the callback reads it:
<<
    lbi = op->o_callback->sc_private;
    Debug( LDAP_DEBUG_ANY, "explockout: basetime: %d\n", lbi->basetime, 0, 0 );
    Debug( LDAP_DEBUG_ANY, "explockout: maxtime: %d\n", lbi->maxtime, 0, 0 );
>>
    [op->o_callback] is dereferenced, then [lbi]. *)
Definition read_lbi (op : Operation) : outcome explockout_info :=
  match o_callback op with
  | [] => Undefined NullDereference
  | cb :: _ =>
      match sc_private cb with
      | None => Undefined NullDereference
      | Some lbi => Returns lbi
      end
  end.

(** The live statements of the function; [now = slap_get_time()] and the
    configuration that [lbi] points to feed nothing but the log. *)
Definition explockout_bind_response {H : Host} (op : Operation) (rs : SlapReply)
  : outcome (Z * Operation * SlapReply * list host_call) :=
  let bi := bd_info op in
  let calls := [Call_be_entry_get_rw (o_req_ndn op)] in
  let '(rc, e, op) := be_entry_get_rw op (o_req_ndn op) in
  let op := with_bd_info op bi in
  if negb (rc =? LDAP_SUCCESS)
  then Returns (SLAP_CB_CONTINUE, op, rs, calls)
  else
    lbi <- read_lbi op ;;
    nb_pwdFailureTime <- countPwdFailureTime (e_attrs e) ;;
    let calls := calls ++ [Call_be_entry_release_r e] in
    let op := be_entry_release_r op e in
    let op := with_bd_info op bi in
    Returns (SLAP_CB_CONTINUE, op, rs, calls).

(** ** explockout_bind
<<
    cb = op->o_tmpcalloc( sizeof(slap_callback), 1, op->o_tmpmemctx );
    cb->sc_response = explockout_bind_response;
    cb->sc_next = op->o_callback->sc_next;
    cb->sc_private = on->on_bi.bi_private;
    op->o_callback->sc_next = cb;
    return SLAP_CB_CONTINUE;
>> *)
Definition explockout_bind (op : Operation) (rs : SlapReply)
  : outcome (Z * Operation) :=
  let on := bd_info op in
  match o_callback op with
  | [] => Undefined NullDereference
  | head :: sc_next =>
      let cb := {| sc_response := explockout_bind_response_ptr;
                   sc_private := bi_private on |} in
      Returns (SLAP_CB_CONTINUE, with_callback op (head :: cb :: sc_next))
  end.

(** The host carries the bind on to the next overlay and to the backend's
    own bind, where the credentials are checked, exactly when the overlay's
    [bi_op_bind] returns [SLAP_CB_CONTINUE]. *)
Definition proceeds_to_credential_check (rc : Z) : bool :=
  rc =? SLAP_CB_CONTINUE.

(** ** explockout_db_init: [ch_calloc] gives a zeroed configuration. *)
Definition explockout_db_init (on : BackendInfo) : Z * BackendInfo :=
  (0, {| bi_type := bi_type on;
         bi_private := Some {| basetime := 0; maxtime := 0 |} |}).

(** ** The design document's policy engine and codec

    The overlay stops at counting: it has no function that turns the count
    into a waiting time or into a verdict, and none that parses a
    timestamp.  The definitions below follow the design document, so that
    its statements about them can be put next to the code. *)

(** Multiplication of two [int]s. *)
Definition int_mul (x y : Z) : outcome Z :=
  let r := x * y in
  if (INT_MIN <=? r) && (r <=? INT_MAX) then Returns r
  else Undefined SignedOverflow.

(** Modelled from the spec: the test "the running product would exceed
    [maxtime]" of section 4.3, absent from the source like the loop it
    guards.  It is decided by a division, so that the product is not formed
    before it is known to fit. *)
Definition would_exceed (product basetime maxtime : Z) : bool :=
  (0 <? basetime) && (maxtime / basetime <? product).

(** Modelled from the spec: the loop of [evaluate] (section 4.3), absent
    from the source.  The running product is [basetime ^ i]; "as soon as the
    running product would exceed [maxtime], stop and return [maxtime]
    rather than continuing to multiply"; at the end "if waitSeconds >=
    maxtime: waitSeconds = maxtime". *)
Fixpoint evaluate_product (remaining : nat) (product basetime maxtime : Z)
  : outcome Z :=
  match remaining with
  | O => Returns (if product >=? maxtime then maxtime else product)
  | S remaining' =>
      if would_exceed product basetime maxtime then Returns maxtime
      else
        product' <- int_mul product basetime ;;
        evaluate_product remaining' product' basetime maxtime
  end.

(** Modelled from the spec: [evaluate(failureCount, basetime, maxtime)] of
    the LockoutPolicyEngine (section 4.3), absent from the source. *)
Definition evaluate (failureCount basetime maxtime : Z) : outcome Z :=
  evaluate_product (Z.to_nat failureCount) 1 basetime maxtime.

Inductive LockoutVerdict : Type :=
| Allow
| Deny (retryAfterSeconds : Z).

(** Modelled from the spec: the verdict of the BindInterceptor (section 4.4,
    steps 3 and 4, with the rule of section 4.3: deny while
    [now < latest + waitSeconds]), absent from the source.  [latest] and
    [now] are instants in seconds. *)
Definition verdict (lbi : explockout_info) (count latest now : Z)
  : outcome LockoutVerdict :=
  if count =? 0 then Returns Allow
  else
    waitSeconds <- evaluate count (basetime lbi) (maxtime lbi) ;;
    if now <? latest + waitSeconds
    then Returns (Deny (latest + waitSeconds - now))
    else Returns Allow.

Definition is_digit (c : ascii) : bool :=
  let n := N_of_ascii c in ((48 <=? n) && (n <=? 57))%N.

(** Modelled from the spec: the inputs that [TimestampCodec.parse] accepts
    (section 4.1): "length == 14 and all-digit content".  The source has no
    parser. *)
Definition parse_accepts (raw : string) : bool :=
  (String.length raw =? 14)%nat && forallb is_digit (list_ascii_of_string raw).

(** What the code does with one stored value: it goes on, or it leaves. *)
Definition value_accepted {P : Platform} (val : list ascii) (v : berval) : bool :=
  match check_value val v with
  | Returns _ => true
  | _ => false
  end.

(** Lexicographic order of two character strings, by character value. *)
Fixpoint lex_le {P : Platform} (a b : list ascii) : bool :=
  match a, b with
  | [], _ => true
  | _ :: _, [] => false
  | x :: a', y :: b' =>
      if char_val x <? char_val y then true
      else if char_val y <? char_val x then false
      else lex_le a' b'
  end.

(** The greater of the running maximum and a value, in that order. *)
Definition later_of {P : Platform} (key : list ascii) (v : berval) : list ascii :=
  if lex_le (bv_val v) key then key else bv_val v.

(** Does the loop of either function stop at this attribute? *)
Definition name_matches (a : Attribute) : outcome bool :=
  desc <- copy_desc a ;; Returns (regexec desc =? 0).

(** ** The loops, read as a search

    Both loops look at every attribute but the final one, in order, and stop
    at the first whose name, as [desc] holds it, matches. *)

(** The name fits [desc] with its terminator. *)
Definition desc_fits (a : Attribute) : bool :=
  let desc_len := to_int (bv_len (ad_cname (a_desc a))) in
  (0 <=? desc_len) && (desc_len <? ATTR_NAME_MAX_LEN).

(** [desc] after the copy of a name that fits. *)
Definition desc_of (a : Attribute) : list ascii :=
  cstring (strncpy_chars (bv_val (ad_cname (a_desc a)))
             (Z.to_nat (to_int (bv_len (ad_cname (a_desc a)))))).

Definition desc_matches (a : Attribute) : bool := regexec (desc_of a) =? 0.

(** The attribute at which the loops stop, if there is one. *)
Definition examined_match (attrs : list Attribute) : option Attribute :=
  find desc_matches (removelast attrs).

(** The values that the loop over [i] goes through. *)
Definition scanned_vals (a : Attribute) : list berval :=
  firstn (Z.to_nat (to_int (a_numvals a))) (a_vals a).

Definition is_exit {A : Type} (o : outcome A) : bool :=
  match o with
  | Exits _ => true
  | _ => false
  end.

(** A character of the 7-bit range, whose value does not depend on the
    signedness of [char]. *)
Definition is_7bit (c : ascii) : bool := (N_of_ascii c <? 128)%N.

Definition all_7bit (l : list ascii) : Prop :=
  Forall (fun c => is_7bit c = true) l.

(** ** Sample data *)

Open Scope string_scope.

Definition attribute (name : string) (vals : list string) : Attribute :=
  {| a_desc := {| ad_cname := name |}; a_vals := vals |}.

Definition objectClass_person : Attribute := attribute "objectClass" ["person"].
Definition cn_alice : Attribute := attribute "cn" ["alice"].

Definition two_failures : Attribute :=
  attribute "pwdFailureTime" ["20180101000000"; "20180101000001"].

Definition short_failure : Attribute :=
  attribute "pwdFailureTime" ["20180101000000"; "2018010100000"].

(** A [val] that happens to hold zeros, and one that holds nines. *)
Definition val_zeros : list ascii := repeat NUL 15.
Definition val_nines : list ascii := list_ascii_of_string "999999999999999".

Definition lockout_5_300 : explockout_info := {| basetime := 5; maxtime := 300 |}.

Definition overlay_info : BackendInfo :=
  {| bi_type := "explockout"; bi_private := Some lockout_5_300 |}.
Definition backend_info : BackendInfo :=
  {| bi_type := "mdb"; bi_private := None |}.

Definition alice_bind : Operation :=
  {| bd_info := overlay_info;
     o_req_ndn := "uid=alice,dc=example,dc=com";
     o_callback := [ {| sc_response := host_response 0; sc_private := None |} ] |}.

(** The same bind as the host hands it to the response callback:
    [op->o_callback] is the callback that [explockout_bind] queued. *)
Definition alice_response : Operation :=
  {| bd_info := overlay_info;
     o_req_ndn := "uid=alice,dc=example,dc=com";
     o_callback := [ {| sc_response := explockout_bind_response_ptr;
                        sc_private := Some lockout_5_300 |} ] |}.

Definition reply_invalid_credentials : SlapReply :=
  {| sr_err := 49; sr_text := "" |}.

(** A host whose backend finds the entry, and leaves its own [bd_info] in
    the operation. *)
Definition host_with (e : Entry) : Host :=
  {| be_entry_get_rw := fun op _ => (LDAP_SUCCESS, e, with_bd_info op backend_info);
     be_entry_release_r := fun op _ => with_bd_info op backend_info |}.

(** A host whose backend has no such entry. *)
Definition host_without : Host :=
  {| be_entry_get_rw := fun op _ =>
       (LDAP_NO_SUCH_OBJECT, {| e_attrs := [] |}, with_bd_info op backend_info);
     be_entry_release_r := fun op _ => with_bd_info op backend_info |}.

Definition alice_entry : Entry :=
  {| e_attrs := [cn_alice; two_failures; objectClass_person] |}.

Definition alice_entry_failures_last : Entry :=
  {| e_attrs := [cn_alice; objectClass_person; two_failures] |}.

Definition alice_entry_clean : Entry :=
  {| e_attrs := [cn_alice; objectClass_person] |}.

(** Two attributes whose names match, the first with an option. *)
Definition failures_with_option : Attribute :=
  attribute "PWDFAILURETIME;x-old" ["20170101000000"].

Definition alice_entry_two_matches : Entry :=
  {| e_attrs := [cn_alice; failures_with_option; two_failures;
                 objectClass_person] |}.

Close Scope string_scope.

(** * Properties *)

Unset Implicit Arguments.

(** ** The traversal of the attribute list *)

Section Traversal.

Context {P : Platform}.

Lemma name_matches_inv (a : Attribute) (b : bool) :
  name_matches a = Returns b ->
  exists desc, copy_desc a = Returns desc /\ (regexec desc =? 0) = b.
Proof.
  unfold name_matches. destruct (copy_desc a) as [desc | st | w]; simpl.
  - intros E. injection E as E. exists desc. split; [reflexivity | exact E].
  - discriminate.
  - discriminate.
Qed.

(** Both loops take the same steps over an attribute that is not the
    last one of the list. *)
Lemma countPwdFailureTime_step (a b : Attribute) (l : list Attribute) :
  countPwdFailureTime (a :: b :: l) =
  (m <- name_matches a ;;
   if m then Returns (to_int (a_numvals a)) else countPwdFailureTime (b :: l)).
Proof.
  unfold name_matches. cbn [countPwdFailureTime].
  destruct (copy_desc a); reflexivity.
Qed.

Lemma getLastPwdFailureTime_step (val : list ascii) (a b : Attribute)
    (l : list Attribute) :
  getLastPwdFailureTime val (a :: b :: l) =
  (m <- name_matches a ;;
   if m then check_values val (firstn (Z.to_nat (to_int (a_numvals a))) (a_vals a))
   else getLastPwdFailureTime val (b :: l)).
Proof.
  unfold name_matches. cbn [getLastPwdFailureTime].
  destruct (copy_desc a); reflexivity.
Qed.

Lemma countPwdFailureTime_skip (pre rest : list Attribute) :
  Forall (fun a => name_matches a = Returns false) pre ->
  rest <> [] ->
  countPwdFailureTime (pre ++ rest) = countPwdFailureTime rest.
Proof.
  intros Hpre Hrest. induction Hpre as [| a pre Ha _ IH]; [reflexivity |].
  rewrite <- IH. rewrite <- app_comm_cons.
  destruct (pre ++ rest) as [| b l] eqn:E.
  - apply app_eq_nil in E. destruct E as [_ E]. contradiction.
  - rewrite countPwdFailureTime_step, Ha. reflexivity.
Qed.

Lemma getLastPwdFailureTime_skip (val : list ascii) (pre rest : list Attribute) :
  Forall (fun a => name_matches a = Returns false) pre ->
  rest <> [] ->
  getLastPwdFailureTime val (pre ++ rest) = getLastPwdFailureTime val rest.
Proof.
  intros Hpre Hrest. induction Hpre as [| a pre Ha _ IH]; [reflexivity |].
  rewrite <- IH. rewrite <- app_comm_cons.
  destruct (pre ++ rest) as [| b l] eqn:E.
  - apply app_eq_nil in E. destruct E as [_ E]. contradiction.
  - rewrite getLastPwdFailureTime_step, Ha. reflexivity.
Qed.

(** C9.  When no attribute before the final one has a name that matches
    pwdFailureTime, [countPwdFailureTime] returns 0 and
    [getLastPwdFailureTime] leaves [val] as it found it, whatever the final
    attribute is: the loops stop on [attrs->a_next == NULL], before they
    look at the final attribute. *)
Theorem final_attribute_never_examined
    (val : list ascii) (before : list Attribute) (final : Attribute) :
  Forall (fun a => name_matches a = Returns false) before ->
  countPwdFailureTime (before ++ [final]) = Returns 0 /\
  getLastPwdFailureTime val (before ++ [final]) = Returns val.
Proof.
  intros Hbefore. split.
  - rewrite countPwdFailureTime_skip by (assumption || discriminate).
    reflexivity.
  - rewrite getLastPwdFailureTime_skip by (assumption || discriminate).
    reflexivity.
Qed.

End Traversal.

Lemma final_attribute_never_examined_witness :
  name_matches two_failures = Returns true /\
  countPwdFailureTime (e_attrs alice_entry_failures_last) = Returns 0 /\
  getLastPwdFailureTime (P := signed_char_platform) val_nines
    (e_attrs alice_entry_failures_last) = Returns val_nines.
Proof.
  split; [reflexivity |].
  apply (final_attribute_never_examined (P := signed_char_platform) val_nines
           [cn_alice; objectClass_person] two_failures).
  repeat constructor.
Defined.

(** ** The response callback *)

Section Response.

Context {H : Host}.

Lemma no_send_get_release (ndn : berval) (released : list Entry) :
  no_send (Call_be_entry_get_rw ndn :: map Call_be_entry_release_r released).
Proof.
  intros err text [Hin | Hin]; [discriminate Hin |].
  apply in_map_iff in Hin. destruct Hin as (e & He & _). discriminate He.
Qed.

(** The two ways out of [explockout_bind_response]. *)
Lemma explockout_bind_response_inv (op : Operation) (rs : SlapReply)
    (r : Z) (op' : Operation) (rs' : SlapReply) (calls : list host_call) :
  explockout_bind_response op rs = Returns (r, op', rs', calls) ->
  r = SLAP_CB_CONTINUE /\ bd_info op' = bd_info op /\ rs' = rs /\
  no_send calls.
Proof.
  unfold explockout_bind_response.
  destruct (be_entry_get_rw op (o_req_ndn op)) as [[rc e] op1].
  destruct (rc =? LDAP_SUCCESS); cbn [negb].
  - destruct (read_lbi (with_bd_info op1 (bd_info op))) as [lbi | st | w];
      cbn [bind]; try discriminate.
    destruct (countPwdFailureTime (e_attrs e)) as [nb | st | w]; simpl;
      intros E; try discriminate E.
    injection E as <- <- <- <-. repeat split.
    apply (no_send_get_release (o_req_ndn op) [e]).
  - intros E. injection E as <- <- <- <-. repeat split.
    apply (no_send_get_release (o_req_ndn op) []).
Qed.

(** The callback does return: always when the fetch fails, and after a
    fetch that succeeds whenever the operation's first callback carries a
    configuration and the counting loop returns. *)
Lemma explockout_bind_response_returns (op : Operation) (rs : SlapReply) :
  (fst (fst (be_entry_get_rw op (o_req_ndn op))) <> LDAP_SUCCESS \/
   ((exists lbi, read_lbi (snd (be_entry_get_rw op (o_req_ndn op))) = Returns lbi) /\
    exists n, countPwdFailureTime
                (e_attrs (snd (fst (be_entry_get_rw op (o_req_ndn op))))) =
              Returns n)) ->
  exists op' calls,
    explockout_bind_response op rs = Returns (SLAP_CB_CONTINUE, op', rs, calls).
Proof.
  unfold explockout_bind_response.
  destruct (be_entry_get_rw op (o_req_ndn op)) as [[rc e] op1]. simpl.
  destruct (Z.eqb_spec rc LDAP_SUCCESS) as [Hrc | Hrc]; cbn [negb].
  - intros [Hne | [[lbi Hlbi] [n Hn]]]; [contradiction |].
    change (read_lbi (with_bd_info op1 (bd_info op))) with (read_lbi op1).
    rewrite Hlbi, Hn. simpl. eauto.
  - intros _. eauto.
Qed.

(** C8.  Whenever [explockout_bind_response] returns, it returns
    [SLAP_CB_CONTINUE], the reply [rs] is the one it was given, and it has
    asked the host to send nothing: the count of failures changes neither
    the result of the bind nor what the client is told. *)
Theorem response_always_continues (op : Operation) (rs : SlapReply)
    (r : Z) (op' : Operation) (rs' : SlapReply) (calls : list host_call) :
  explockout_bind_response op rs = Returns (r, op', rs', calls) ->
  r = SLAP_CB_CONTINUE /\ rs' = rs /\ no_send calls.
Proof.
  intros E. apply explockout_bind_response_inv in E. tauto.
Qed.

(** C10.  Whenever [explockout_bind_response] returns,
    [op->o_bd->bd_info] is what it was on entry, whatever the host's
    functions did to it in between. *)
Theorem response_restores_bd_info (op : Operation) (rs : SlapReply)
    (r : Z) (op' : Operation) (rs' : SlapReply) (calls : list host_call) :
  explockout_bind_response op rs = Returns (r, op', rs', calls) ->
  bd_info op' = bd_info op.
Proof.
  intros E. apply explockout_bind_response_inv in E. tauto.
Qed.

(** C6, as the code has it.  When the fetch of the entry fails,
    [explockout_bind_response] returns [SLAP_CB_CONTINUE] at once: the
    failures are not counted, the reply is left alone, nothing is sent,
    and the host is told nothing of the failure. *)
Theorem fetch_failure_passes_through (op : Operation) (rs : SlapReply) :
  fst (fst (be_entry_get_rw op (o_req_ndn op))) <> LDAP_SUCCESS ->
  explockout_bind_response op rs =
  Returns (SLAP_CB_CONTINUE,
           with_bd_info (snd (be_entry_get_rw op (o_req_ndn op))) (bd_info op),
           rs,
           [Call_be_entry_get_rw (o_req_ndn op)]).
Proof.
  unfold explockout_bind_response.
  destruct (be_entry_get_rw op (o_req_ndn op)) as [[rc e] op1]. simpl.
  intros Hrc. destruct (Z.eqb_spec rc LDAP_SUCCESS); [contradiction |].
  reflexivity.
Qed.

End Response.

Lemma response_always_continues_witness :
  SLAP_CB_CONTINUE = SLAP_CB_CONTINUE /\
  reply_invalid_credentials = reply_invalid_credentials /\
  no_send [Call_be_entry_get_rw (o_req_ndn alice_response);
           Call_be_entry_release_r alice_entry].
Proof.
  apply (response_always_continues (H := host_with alice_entry)
           alice_response reply_invalid_credentials
           SLAP_CB_CONTINUE alice_response reply_invalid_credentials).
  reflexivity.
Defined.

Lemma response_restores_bd_info_witness :
  bd_info (snd (be_entry_get_rw (Host := host_with alice_entry)
                  alice_response (o_req_ndn alice_response))) = backend_info /\
  bd_info alice_response = overlay_info.
Proof.
  split; [reflexivity |].
  apply (response_restores_bd_info (H := host_with alice_entry)
           alice_response reply_invalid_credentials
           SLAP_CB_CONTINUE alice_response reply_invalid_credentials
           [Call_be_entry_get_rw (o_req_ndn alice_response);
            Call_be_entry_release_r alice_entry]).
  reflexivity.
Defined.

Lemma fetch_failure_passes_through_witness :
  explockout_bind_response (H := host_without) alice_bind reply_invalid_credentials =
  Returns (SLAP_CB_CONTINUE, alice_bind, reply_invalid_credentials,
           [Call_be_entry_get_rw (o_req_ndn alice_bind)]).
Proof.
  apply (fetch_failure_passes_through (H := host_without)
           alice_bind reply_invalid_credentials).
  discriminate.
Defined.

(** C6, as the design document has it, fails on the code.  The backend has
    no entry for the name ([LDAP_NO_SUCH_OBJECT]); the callback returns the
    very result it returns after a fetch that succeeded, with the same reply
    and nothing sent: the failure is not surfaced, and nothing is denied. *)
Lemma fetch_failure_not_surfaced :
  fst (fst (be_entry_get_rw (Host := host_without) alice_response
              (o_req_ndn alice_response))) = LDAP_NO_SUCH_OBJECT /\
  explockout_bind_response (H := host_without)
    alice_response reply_invalid_credentials =
  Returns (SLAP_CB_CONTINUE, alice_response, reply_invalid_credentials,
           [Call_be_entry_get_rw (o_req_ndn alice_response)]) /\
  explockout_bind_response (H := host_with alice_entry_clean)
    alice_response reply_invalid_credentials =
  Returns (SLAP_CB_CONTINUE, alice_response, reply_invalid_credentials,
           [Call_be_entry_get_rw (o_req_ndn alice_response);
            Call_be_entry_release_r alice_entry_clean]).
Proof.
  repeat split.
Qed.

(** ** The stored values *)

Lemma to_int_small (z : Z) : 0 <= z <= INT_MAX -> to_int z = z.
Proof.
  unfold to_int, INT_MAX. intros Hz.
  rewrite Z.mod_small by lia. lia.
Qed.

Section Values.

Context {P : Platform}.

Lemma check_value_short (val : list ascii) (v : berval) :
  value_len v < 14 -> check_value val v = Exits EXIT_FAILURE.
Proof.
  intros Hv. unfold check_value.
  destruct (Z.ltb_spec (value_len v) 14); [reflexivity | lia].
Qed.

Lemma check_value_long (val : list ascii) (v : berval) :
  14 <= value_len v -> exists val', check_value val v = Returns val'.
Proof.
  intros Hv. unfold check_value.
  destruct (Z.ltb_spec (value_len v) 14); [lia |].
  destruct (value_is_superior (bv_val v) val 0 14); eauto.
Qed.

Lemma check_value_cases (val : list ascii) (v : berval) :
  (value_len v < 14 /\ check_value val v = Exits EXIT_FAILURE) \/
  (14 <= value_len v /\ exists val', check_value val v = Returns val').
Proof.
  destruct (Z.lt_ge_cases (value_len v) 14) as [Hlt | Hge].
  - left. auto using check_value_short.
  - right. auto using check_value_long.
Qed.

(** One short value among those scanned ends the process, wherever it
    stands among them. *)
Lemma check_values_exits (vals : list berval) :
  Exists (fun v => value_len v < 14) vals ->
  forall val, check_values val vals = Exits EXIT_FAILURE.
Proof.
  induction vals as [| v0 vals IH]; intros Hex val.
  - inversion Hex.
  - cbn [check_values].
    destruct (check_value_cases val v0) as [[_ E] | [Hge [val' E]]];
      rewrite E; simpl; [reflexivity |].
    apply IH. inversion Hex as [? ? Hv0 | ? ? Htl]; subst; [lia | exact Htl].
Qed.

Lemma check_values_returns (vals : list berval) :
  Forall (fun v => 14 <= value_len v) vals ->
  forall val, exists val', check_values val vals = Returns val'.
Proof.
  induction 1 as [| v0 vals Hv0 _ IH]; intros val.
  - exists val. reflexivity.
  - cbn [check_values].
    destruct (check_value_long val v0 Hv0) as [val' E]. rewrite E. simpl.
    apply IH.
Qed.

(** C1, as the code has it.  When [getLastPwdFailureTime] reaches an
    attribute whose name matches and one of its values is shorter than
    14 characters, it terminates the process with [EXIT_FAILURE]: no
    error is reported for the principal and nothing is denied. *)
Theorem short_value_terminates_process
    (val : list ascii) (before : list Attribute)
    (a next : Attribute) (rest : list Attribute) (v : berval) :
  Forall (fun b => name_matches b = Returns false) before ->
  name_matches a = Returns true ->
  a_numvals a <= INT_MAX ->
  In v (a_vals a) ->
  value_len v < 14 ->
  getLastPwdFailureTime val (before ++ a :: next :: rest) =
  Exits EXIT_FAILURE.
Proof.
  intros Hbefore Ha Hnum Hin Hv.
  rewrite getLastPwdFailureTime_skip by (assumption || discriminate).
  rewrite getLastPwdFailureTime_step, Ha. cbn [bind].
  rewrite to_int_small by (unfold a_numvals in *; lia).
  unfold a_numvals. rewrite Nat2Z.id, firstn_all.
  apply check_values_exits. apply Exists_exists. exists v. auto.
Qed.

Lemma long_value_accepted (val : list ascii) (v : berval) :
  14 <= value_len v -> value_accepted val v = true.
Proof.
  intros Hv. unfold value_accepted.
  destruct (check_value_long val v Hv) as [val' E]. rewrite E. reflexivity.
Qed.

(** C5, as the code has it.  The code goes on with a stored value exactly
    when the value has 14 characters or more, and leaves the process
    exactly when it has fewer; what the characters are plays no part. *)
Theorem value_accepted_iff_long_enough (val : list ascii) (v : berval) :
  (value_accepted val v = true <-> 14 <= value_len v) /\
  (check_value val v = Exits EXIT_FAILURE <-> value_len v < 14).
Proof.
  unfold value_accepted.
  destruct (check_value_cases val v) as [[Hlt E] | [Hge [val' E]]];
    rewrite E; split; split; intros; try lia; try discriminate; reflexivity.
Qed.

End Values.

Lemma value_len_small (v : berval) :
  Z.of_nat (String.length v) <= INT_MAX -> value_len v = Z.of_nat (String.length v).
Proof.
  intros Hv. unfold value_len, bv_len. apply to_int_small. lia.
Qed.

Lemma short_value_terminates_process_witness :
  getLastPwdFailureTime (P := signed_char_platform) val_zeros
    ([cn_alice] ++ short_failure :: objectClass_person :: []) =
  Exits EXIT_FAILURE.
Proof.
  apply (short_value_terminates_process (P := signed_char_platform)
           val_zeros [cn_alice] short_failure objectClass_person []
           "2018010100000"%string).
  - repeat constructor.
  - reflexivity.
  - vm_compute. discriminate.
  - simpl. auto.
  - vm_compute. reflexivity.
Defined.

(** C1, as the design document has it, fails on the code.  The second
    stored value has 13 characters: the process is terminated. *)
Lemma malformed_value_exits_process :
  a_vals short_failure = ["20180101000000"%string; "2018010100000"%string] /\
  parse_accepts "2018010100000" = false /\
  getLastPwdFailureTime (P := signed_char_platform) val_zeros
    [cn_alice; short_failure; objectClass_person] = Exits EXIT_FAILURE /\
  getLastPwdFailureTime (P := unsigned_char_platform) val_zeros
    [cn_alice; short_failure; objectClass_person] = Exits EXIT_FAILURE.
Proof.
  repeat split.
Qed.

(** C5, as the design document has it, fails on the code.  A value of 14
    characters that ends in a letter, and a value of 15 digits, are both
    gone through without complaint. *)
Lemma malformed_values_accepted :
  parse_accepts "2018010100000X" = false /\
  value_accepted (P := signed_char_platform) val_zeros "2018010100000X"%string = true /\
  parse_accepts "201801010000001" = false /\
  value_accepted (P := signed_char_platform) val_zeros "201801010000001"%string = true /\
  getLastPwdFailureTime (P := signed_char_platform) val_zeros
    [attribute "pwdFailureTime" ["2018010100000X"%string; "201801010000001"%string];
     objectClass_person] =
  Returns (list_ascii_of_string "2018010100000X" ++ [NUL]).
Proof.
  repeat split.
Qed.

(** ** The running maximum *)

Section RunningMaximum.

Context {P : Platform}.

(** A value whose first character is below the first character that
    [val] holds never replaces [val]. *)
Lemma check_value_loses (val : list ascii) (v : berval) :
  14 <= value_len v ->
  char_val (nth 0 (bv_val v) NUL) < char_val (nth 0 val NUL) ->
  check_value val v = Returns val.
Proof.
  intros Hlen Hlt. unfold check_value.
  destruct (Z.ltb_spec (value_len v) 14); [lia |].
  cbn [value_is_superior].
  destruct (Z.gtb_spec (char_val (nth 0 (bv_val v) NUL))
              (char_val (nth 0 val NUL))); [lia |].
  destruct (Z.ltb_spec (char_val (nth 0 (bv_val v) NUL))
              (char_val (nth 0 val NUL))); [reflexivity | lia].
Qed.

(** X10.  So when what the stack left in [val] starts with a character
    above the first character of every value, [val] comes out as it went
    in. *)
Lemma check_values_keep_garbage (val : list ascii) (vals : list berval) :
  Forall (fun v => 14 <= value_len v /\
                   char_val (nth 0 (bv_val v) NUL) < char_val (nth 0 val NUL))
         vals ->
  check_values val vals = Returns val.
Proof.
  induction 1 as [| v vals [Hlen Hlt] _ IH]; [reflexivity |].
  cbn [check_values]. rewrite check_value_loses by assumption.
  exact IH.
Qed.

End RunningMaximum.

(** *** What the loop computes

    Over well-formed timestamps the loop keeps a running maximum in the
    lexicographic order, starting from what [val] held on entry. *)
Section LexOrder.

Context {P : Platform}.

Lemma lex_le_refl (a : list ascii) : lex_le a a = true.
Proof.
induction a as [| x a IH]; [reflexivity |].
cbn [lex_le]. rewrite Z.ltb_irrefl. exact IH.
Qed.

Lemma lex_le_trans (a : list ascii) :
  forall b c, lex_le a b = true -> lex_le b c = true -> lex_le a c = true.
Proof.
induction a as [| x a IH]; intros [| y b] [| z c]; cbn [lex_le];
  try reflexivity; try discriminate.
destruct (Z.ltb_spec (char_val x) (char_val y));
  destruct (Z.ltb_spec (char_val y) (char_val x));
  destruct (Z.ltb_spec (char_val y) (char_val z));
  destruct (Z.ltb_spec (char_val z) (char_val y));
  destruct (Z.ltb_spec (char_val x) (char_val z));
  destruct (Z.ltb_spec (char_val z) (char_val x));
  try reflexivity; try discriminate; try lia.
apply IH.
Qed.

Lemma lex_le_total (a : list ascii) :
  forall b, lex_le a b = false -> lex_le b a = true.
Proof.
induction a as [| x a IH]; intros [| y b]; cbn [lex_le];
  try reflexivity; try discriminate.
destruct (Z.ltb_spec (char_val x) (char_val y));
  destruct (Z.ltb_spec (char_val y) (char_val x));
  try reflexivity; try discriminate; try lia.
apply IH.
Qed.

Lemma value_is_superior_shift (n : nat) :
  forall (c d : ascii) (a b : list ascii) (j : nat),
  value_is_superior (c :: a) (d :: b) (S j) n = value_is_superior a b j n.
Proof.
induction n as [| n IH]; intros c d a b j; [reflexivity |].
cbn [value_is_superior nth]. rewrite IH. reflexivity.
Qed.

Lemma value_is_superior_lex (a : list ascii) :
  forall (b ta tb : list ascii),
  List.length a = List.length b ->
  value_is_superior (a ++ ta) (b ++ tb) 0 (List.length a) = negb (lex_le a b).
Proof.
induction a as [| c a IH]; intros [| d b] ta tb Hlen;
  try discriminate Hlen; [reflexivity |].
cbn [List.length app value_is_superior nth lex_le].
rewrite value_is_superior_shift, IH by (simpl in Hlen; lia).
destruct (Z.gtb_spec (char_val c) (char_val d));
  destruct (Z.ltb_spec (char_val c) (char_val d));
  destruct (Z.ltb_spec (char_val d) (char_val c));
  try reflexivity; lia.
Qed.

End LexOrder.

Lemma length_bv_val (v : berval) : List.length (bv_val v) = String.length v.
Proof.
unfold bv_val. induction v as [| c v IH]; [reflexivity |].
simpl. rewrite IH. reflexivity.
Qed.

Lemma strncpy_chars_digits (l : list ascii) :
  forallb is_digit l = true -> strncpy_chars l (List.length l) = l.
Proof.
induction l as [| c l IH]; [reflexivity |].
cbn [forallb List.length strncpy_chars]. intros Hd.
apply andb_true_iff in Hd. destruct Hd as [Hc Hl].
destruct (Ascii.eqb_spec c NUL) as [-> | _]; [discriminate Hc |].
rewrite IH by exact Hl. reflexivity.
Qed.

Lemma parse_accepts_inv (v : berval) :
  parse_accepts v = true ->
  List.length (bv_val v) = 14%nat /\ forallb is_digit (bv_val v) = true /\
  value_len v = 14.
Proof.
unfold parse_accepts. intros Hv. apply andb_true_iff in Hv.
destruct Hv as [Hlen Hd]. apply Nat.eqb_eq in Hlen.
rewrite length_bv_val. repeat split; try assumption.
unfold value_len, bv_len. rewrite Hlen. reflexivity.
Qed.

(** Whatever the parser of the design document accepts, the code goes on
    with; the converse fails. *)
Lemma parse_accepts_value_accepted {P : Platform} (val : list ascii) (v : berval) :
  parse_accepts v = true -> value_accepted val v = true.
Proof.
intros Hv. apply parse_accepts_inv in Hv. destruct Hv as (_ & _ & Hvl).
apply long_value_accepted. lia.
Qed.

Lemma store_strncpy (key src : list ascii) (t : ascii) :
  List.length key = List.length src ->
  strncpy_chars src (List.length src) = src ->
  store (strncpy (key ++ [t]) src (List.length src)) (List.length src) NUL =
  src ++ [NUL].
Proof.
intros Hk Hc. unfold strncpy, store. rewrite Hc.
assert (Ht : skipn (List.length src) (key ++ [t]) = [t]).
{ rewrite <- Hk, skipn_app, skipn_all, Nat.sub_diag. reflexivity. }
rewrite Ht.
rewrite firstn_app, firstn_all, Nat.sub_diag. cbn [firstn].
rewrite app_nil_r. rewrite skipn_all2 by (rewrite length_app; simpl; lia).
reflexivity.
Qed.

Section Maximum.

Context {P : Platform}.

Lemma length_later_of (key : list ascii) (v : berval) :
  List.length key = 14%nat -> parse_accepts v = true ->
  List.length (later_of key v) = 14%nat.
Proof.
intros Hk Hv. unfold later_of.
destruct (lex_le (bv_val v) key); [exact Hk |].
apply parse_accepts_inv in Hv. tauto.
Qed.

Lemma check_value_later_of (key : list ascii) (t : ascii) (v : berval) :
  List.length key = 14%nat -> parse_accepts v = true ->
  exists t', check_value (key ++ [t]) v = Returns (later_of key v ++ [t']).
Proof.
intros Hk Hv. apply parse_accepts_inv in Hv. destruct Hv as (Hlen & Hd & Hvl).
unfold check_value, later_of. rewrite Hvl.
change (14 <? 14) with false. cbv iota.
pose proof (value_is_superior_lex (bv_val v) key [] [t]) as Hs.
rewrite app_nil_r in Hs. rewrite <- Hlen in Hk |- *.
rewrite Hs by (symmetry; exact Hk).
destruct (lex_le (bv_val v) key); cbn [negb].
- exists t. reflexivity.
- exists NUL. rewrite store_strncpy; [reflexivity | exact Hk |].
  apply strncpy_chars_digits. exact Hd.
Qed.

Lemma check_values_fold (vals : list berval) :
  forall (key : list ascii) (t : ascii),
  List.length key = 14%nat ->
  Forall (fun v => parse_accepts v = true) vals ->
  exists t', check_values (key ++ [t]) vals =
             Returns (fold_left later_of vals key ++ [t']).
Proof.
induction vals as [| v vals IH]; intros key t Hk Hvals.
- exists t. reflexivity.
- inversion Hvals as [| ? ? Hv Hrest]; subst.
  cbn [check_values fold_left].
  destruct (check_value_later_of key t v Hk Hv) as [t1 E]. rewrite E.
  cbn [bind]. apply IH; [apply length_later_of; assumption | exact Hrest].
Qed.

Lemma fold_later_of_spec (vals : list berval) :
  forall key : list ascii,
  let latest := fold_left later_of vals key in
  lex_le key latest = true /\
  Forall (fun v => lex_le (bv_val v) latest = true) vals /\
  (latest = key \/ In latest (map bv_val vals)).
Proof.
induction vals as [| v vals IH]; intros key; cbn [fold_left map].
- repeat split; [apply lex_le_refl | constructor | left; reflexivity].
- destruct (IH (later_of key v)) as (Hle & Hall & Hin).
  assert (Hstep : lex_le key (later_of key v) = true /\
                  lex_le (bv_val v) (later_of key v) = true).
  { unfold later_of. destruct (lex_le (bv_val v) key) eqn:E.
    - split; [apply lex_le_refl | exact E].
    - split; [apply lex_le_total; exact E | apply lex_le_refl]. }
  destruct Hstep as [Hk Hv]. repeat split.
  + eapply lex_le_trans; eassumption.
  + constructor; [eapply lex_le_trans; eassumption | exact Hall].
  + destruct Hin as [-> | Hin].
    * unfold later_of. destruct (lex_le (bv_val v) key);
        [left; reflexivity | right; left; reflexivity].
    * right. right. exact Hin.
Qed.

End Maximum.

Section Latest.

Context {P : Platform}.

Lemma char_val_digit (c : ascii) :
  is_digit c = true -> 48 <= char_val c <= 57.
Proof.
unfold is_digit, char_val. intros Hd.
apply andb_true_iff in Hd. destruct Hd as [Hlo Hhi].
apply N.leb_le in Hlo. apply N.leb_le in Hhi.
destruct (Z.leb_spec 128 (Z.of_N (N_of_ascii c))); [lia |].
rewrite andb_false_r. lia.
Qed.

Lemma char_val_NUL : char_val NUL = 0.
Proof. unfold char_val. destruct char_signed; reflexivity. Qed.

Lemma lex_le_digits_zeros (v : berval) :
  parse_accepts v = true -> lex_le (bv_val v) (repeat NUL 14) = false.
Proof.
intros Hv. apply parse_accepts_inv in Hv. destruct Hv as (Hlen & Hd & _).
destruct (bv_val v) as [| c l]; [discriminate Hlen |].
cbn [forallb] in Hd. apply andb_true_iff in Hd. destruct Hd as [Hc _].
apply char_val_digit in Hc.
cbn [repeat lex_le]. rewrite char_val_NUL.
destruct (Z.ltb_spec (char_val c) 0); [lia |].
destruct (Z.ltb_spec 0 (char_val c)); [reflexivity | lia].
Qed.

Lemma getLastPwdFailureTime_running_maximum
    (key : list ascii) (t : ascii) (before : list Attribute)
    (a next : Attribute) (rest : list Attribute) :
  List.length key = 14%nat ->
  Forall (fun b => name_matches b = Returns false) before ->
  name_matches a = Returns true ->
  a_numvals a <= INT_MAX ->
  Forall (fun v => parse_accepts v = true) (a_vals a) ->
  exists latest t',
    getLastPwdFailureTime (key ++ [t]) (before ++ a :: next :: rest) =
    Returns (latest ++ [t']) /\
    lex_le key latest = true /\
    Forall (fun v => lex_le (bv_val v) latest = true) (a_vals a) /\
    (latest = key \/ In latest (map bv_val (a_vals a))).
Proof.
intros Hk Hbefore Ha Hnum Hvals.
rewrite getLastPwdFailureTime_skip by (assumption || discriminate).
rewrite getLastPwdFailureTime_step, Ha. cbn [bind].
rewrite to_int_small by (unfold a_numvals in *; lia).
unfold a_numvals. rewrite Nat2Z.id, firstn_all.
destruct (check_values_fold (a_vals a) key t Hk Hvals) as [t' E].
exists (fold_left later_of (a_vals a) key), t'.
split; [exact E | apply fold_later_of_spec].
Qed.

(** X9.  Had the first 14 bytes of [val] been zero on entry, the function
    would end, over a matching attribute that holds at least one value and
    only values of 14 digits, with one of those values in [val], and one
    that none of them exceeds. *)
Lemma getLastPwdFailureTime_zero_initialised
    (t : ascii) (before : list Attribute)
    (a next : Attribute) (rest : list Attribute) :
  Forall (fun b => name_matches b = Returns false) before ->
  name_matches a = Returns true ->
  a_numvals a <= INT_MAX ->
  Forall (fun v => parse_accepts v = true) (a_vals a) ->
  a_vals a <> [] ->
  exists latest t',
    getLastPwdFailureTime (repeat NUL 14 ++ [t]) (before ++ a :: next :: rest) =
    Returns (latest ++ [t']) /\
    In latest (map bv_val (a_vals a)) /\
    Forall (fun v => lex_le (bv_val v) latest = true) (a_vals a).
Proof.
intros Hbefore Ha Hnum Hvals Hne.
destruct (getLastPwdFailureTime_running_maximum (repeat NUL 14) t before a next
            rest eq_refl Hbefore Ha Hnum Hvals)
  as (latest & t' & E & _ & Hmax & Hin).
exists latest, t'. repeat split; try assumption.
destruct Hin as [-> | Hin]; [| exact Hin].
destruct (a_vals a) as [| v vals]; [contradiction |].
inversion Hvals as [| ? ? Hv _]; subst.
inversion Hmax as [| ? ? Hle _]; subst.
rewrite lex_le_digits_zeros in Hle by exact Hv. discriminate Hle.
Qed.

End Latest.

(** C4 on the code.  The entry holds two well-formed timestamps.  With
    nines where [val] lies on the stack, the function ends with those nines
    in [val], under either signedness of [char]: neither stored value is
    ever copied.  With zeros there, it ends with the later timestamp. *)
Theorem latest_depends_on_uninitialised_val :
  a_vals two_failures = ["20180101000000"%string; "20180101000001"%string] /\
  getLastPwdFailureTime (P := signed_char_platform) val_nines
    (e_attrs alice_entry) = Returns val_nines /\
  getLastPwdFailureTime (P := unsigned_char_platform) val_nines
    (e_attrs alice_entry) = Returns val_nines /\
  getLastPwdFailureTime (P := signed_char_platform) val_zeros
    (e_attrs alice_entry) =
  Returns (list_ascii_of_string "20180101000001" ++ [NUL]).
Proof.
  repeat split.
Qed.

(** ** The waiting time *)

Section WaitingTime.

Variables base cap : Z.
Hypothesis base_int : 0 <= base <= INT_MAX.
Hypothesis cap_int : 0 <= cap <= INT_MAX.

Lemma would_exceed_true (product : Z) :
  0 <= product ->
  would_exceed product base cap = true ->
  0 < base /\ cap < product * base.
Proof.
  unfold would_exceed. intros Hp Hw.
  apply andb_true_iff in Hw. destruct Hw as [Hb Hd].
  apply Z.ltb_lt in Hb. apply Z.ltb_lt in Hd. split; [exact Hb |].
  pose proof (Z.mul_succ_div_gt cap base Hb). nia.
Qed.

Lemma would_exceed_false (product : Z) :
  0 <= product ->
  would_exceed product base cap = false ->
  0 <= product * base <= cap.
Proof.
  unfold would_exceed. intros Hp Hw.
  apply andb_false_iff in Hw. destruct Hw as [Hb | Hd].
  - apply Z.ltb_ge in Hb. assert (base = 0) by lia. subst. lia.
  - apply Z.ltb_ge in Hd.
    assert (Hb : 0 < base \/ base = 0) by lia.
    destruct Hb as [Hb | ->]; [| lia].
    pose proof (Z.mul_div_le cap base Hb). nia.
Qed.

(** The loop never multiplies beyond [maxtime], and ends on the capped
    power. *)
Lemma evaluate_product_capped (remaining : nat) :
  forall product, 0 <= product ->
  evaluate_product remaining product base cap =
  Returns (if product * base ^ Z.of_nat remaining >=? cap
           then cap
           else product * base ^ Z.of_nat remaining).
Proof.
  induction remaining as [| k IH]; intros p Hp.
  - cbn [evaluate_product]. change (Z.of_nat 0) with 0.
    rewrite Z.pow_0_r, Z.mul_1_r. reflexivity.
  - cbn [evaluate_product].
    rewrite Nat2Z.inj_succ, Z.pow_succ_r by lia.
    destruct (would_exceed p base cap) eqn:Hw.
    + apply would_exceed_true in Hw; [| exact Hp]. destruct Hw as [Hb Hm].
      assert (Hk : 1 <= base ^ Z.of_nat k)
        by (pose proof (Z.pow_pos_nonneg base (Z.of_nat k)); lia).
      destruct (Z.geb_spec (p * (base * base ^ Z.of_nat k)) cap);
        [reflexivity | nia].
    + apply would_exceed_false in Hw; [| exact Hp].
      unfold int_mul.
      replace ((INT_MIN <=? p * base) && (p * base <=? INT_MAX))
        with true.
      * cbn [bind]. rewrite IH by lia. rewrite Z.mul_assoc. reflexivity.
      * symmetry. apply andb_true_iff. unfold INT_MIN.
        split; [apply Z.leb_le | apply Z.leb_le]; lia.
Qed.

(** C3.  For every count of failures that is not negative and every
    [basetime] and [maxtime] that are [int]s and not negative, [evaluate]
    returns (no multiplication leaves the range of [int]), what it
    returns is at most [maxtime], and it is the waiting time that the
    comment on [struct explockout_info] documents. *)
Theorem evaluate_at_most_maxtime (failureCount : Z) :
  0 <= failureCount ->
  exists waitSeconds,
    evaluate failureCount base cap = Returns waitSeconds /\
    0 <= waitSeconds <= cap /\
    waitSeconds =
    waiting_time {| basetime := base; maxtime := cap |} failureCount.
Proof.
  intros Hn. unfold evaluate, waiting_time; cbn [basetime maxtime].
  rewrite evaluate_product_capped by lia.
  rewrite Z2Nat.id, Z.mul_1_l by exact Hn.
  assert (Hpow : 0 <= base ^ failureCount) by (apply Z.pow_nonneg; lia).
  eexists. split; [reflexivity |].
  destruct (Z.geb_spec (base ^ failureCount) cap);
    destruct (Z.ltb_spec (base ^ failureCount) cap); lia.
Qed.

End WaitingTime.

Lemma evaluate_at_most_maxtime_witness :
  exists waitSeconds,
    evaluate 6 2 60 = Returns waitSeconds /\
    0 <= waitSeconds <= 60 /\
    waitSeconds = waiting_time {| basetime := 2; maxtime := 60 |} 6.
Proof.
  apply (evaluate_at_most_maxtime 2 60); vm_compute; intuition discriminate.
Defined.

(** ** The bind hook and the verdict *)

(** The scenarios of the design document, on the policy as modelled. *)
Example evaluate_wait_sequence :
  map (fun failureCount => evaluate failureCount 2 60) [1; 2; 3; 4; 5; 6; 7] =
  map Returns [2; 4; 8; 16; 32; 60; 60].
Proof. reflexivity. Qed.

Example verdict_deny_then_allow :
  verdict lockout_5_300 1 1514764800 (1514764800 + 3) = Returns (Deny 2) /\
  verdict lockout_5_300 1 1514764800 (1514764800 + 10) = Returns Allow.
Proof. split; reflexivity. Qed.

Lemma evaluate_zero_failures (base cap : Z) :
  evaluate 0 base cap = Returns (if 1 >=? cap then cap else 1).
Proof. reflexivity. Qed.

Lemma bind_always_proceeds_aux (op : Operation) (rs : SlapReply)
    (head : slap_callback) (sc_next : list slap_callback) :
  o_callback op = head :: sc_next ->
  exists op', explockout_bind op rs = Returns (SLAP_CB_CONTINUE, op').
Proof.
  intros Hcb. unfold explockout_bind. rewrite Hcb. eauto.
Qed.

(** C2, as the code has it.  [explockout_bind] does not short-circuit: on
    every bind whose operation carries a callback it queues
    [explockout_bind_response], with the configuration, behind the first
    callback of the operation and returns [SLAP_CB_CONTINUE], so that the
    host goes on to the check of the credentials. *)
Theorem bind_always_proceeds (op : Operation) (rs : SlapReply)
    (head : slap_callback) (sc_next : list slap_callback) :
  o_callback op = head :: sc_next ->
  explockout_bind op rs =
  Returns (SLAP_CB_CONTINUE,
           with_callback op
             (head :: {| sc_response := explockout_bind_response_ptr;
                         sc_private := bi_private (bd_info op) |} :: sc_next)) /\
  proceeds_to_credential_check SLAP_CB_CONTINUE = true.
Proof.
  intros Hcb. unfold explockout_bind. rewrite Hcb. split; reflexivity.
Qed.

Lemma bind_always_proceeds_witness :
  explockout_bind alice_bind reply_invalid_credentials =
  Returns (SLAP_CB_CONTINUE,
           with_callback alice_bind
             [ {| sc_response := host_response 0; sc_private := None |};
               {| sc_response := explockout_bind_response_ptr;
                  sc_private := Some lockout_5_300 |} ]) /\
  proceeds_to_credential_check SLAP_CB_CONTINUE = true.
Proof.
  apply (bind_always_proceeds alice_bind reply_invalid_credentials
           {| sc_response := host_response 0; sc_private := None |} []).
  reflexivity.
Defined.

(** C2, as the design document has it, fails on the code.  The entry has
    one recorded failure, at instant 1514764800; with [basetime] 5 and
    [maxtime] 300 the verdict three seconds later is to deny for two more
    seconds.  [explockout_bind] returns [SLAP_CB_CONTINUE] all the same, so
    the credentials are checked. *)
Lemma denied_attempt_reaches_credential_check :
  bi_private (bd_info alice_bind) = Some lockout_5_300 /\
  countPwdFailureTime
    [cn_alice; attribute "pwdFailureTime" ["20180101000000"%string];
     objectClass_person] = Returns 1 /\
  verdict lockout_5_300 1 1514764800 (1514764800 + 3) = Returns (Deny 2) /\
  (exists op', explockout_bind alice_bind reply_invalid_credentials =
               Returns (SLAP_CB_CONTINUE, op')) /\
  proceeds_to_credential_check SLAP_CB_CONTINUE = true.
Proof.
  repeat split. eexists. reflexivity.
Qed.

Section ZeroFailures.

Context {H : Host}.

(** C7.  For every configuration with [maxtime] at least 1, as every
    configuration of two positive integers has, [evaluate] gives 1 for a
    count of 0 and the verdict for a count of 0 is to allow.  On the code,
    the bind goes on to the check of the credentials ([explockout_bind]
    returns [SLAP_CB_CONTINUE] on the operation it is given), and when the
    response callback, on the operation it is given, finds the entry,
    reads its configuration and counts 0 failures, it passes the result on
    as it is: it returns [SLAP_CB_CONTINUE], keeps the reply and sends
    nothing. *)
Theorem zero_failures_allowed (lbi : explockout_info)
    (bind_op op : Operation) (rs : SlapReply) (latest now : Z) :
  1 <= maxtime lbi ->
  o_callback bind_op <> [] ->
  fst (fst (be_entry_get_rw op (o_req_ndn op))) = LDAP_SUCCESS ->
  read_lbi (snd (be_entry_get_rw op (o_req_ndn op))) = Returns lbi ->
  countPwdFailureTime
    (e_attrs (snd (fst (be_entry_get_rw op (o_req_ndn op))))) = Returns 0 ->
  evaluate 0 (basetime lbi) (maxtime lbi) = Returns 1 /\
  verdict lbi 0 latest now = Returns Allow /\
  (exists op', explockout_bind bind_op rs = Returns (SLAP_CB_CONTINUE, op')) /\
  proceeds_to_credential_check SLAP_CB_CONTINUE = true /\
  (exists op' calls,
     explockout_bind_response op rs =
     Returns (SLAP_CB_CONTINUE, op', rs, calls) /\ no_send calls).
Proof.
  intros Hmax Hcb Hrc Hlbi Hcount. repeat split.
  - rewrite evaluate_zero_failures.
    destruct (Z.geb_spec 1 (maxtime lbi)); [f_equal; lia | reflexivity].
  - destruct (o_callback bind_op) as [| head sc_next] eqn:E; [contradiction |].
    destruct (bind_always_proceeds_aux bind_op rs head sc_next E) as [op' E'].
    exists op'. exact E'.
  - destruct (explockout_bind_response_returns op rs) as (op' & calls & E).
    + right. split; [exists lbi; exact Hlbi | exists 0; exact Hcount].
    + exists op', calls. split; [exact E |].
      apply explockout_bind_response_inv in E. tauto.
Qed.

End ZeroFailures.

Lemma zero_failures_allowed_witness :
  evaluate 0 5 300 = Returns 1 /\
  verdict lockout_5_300 0 0 1514764800 = Returns Allow /\
  (exists op', explockout_bind alice_bind reply_invalid_credentials =
               Returns (SLAP_CB_CONTINUE, op')) /\
  proceeds_to_credential_check SLAP_CB_CONTINUE = true /\
  (exists op' calls,
     explockout_bind_response (H := host_with alice_entry_clean)
       alice_response reply_invalid_credentials =
     Returns (SLAP_CB_CONTINUE, op', reply_invalid_credentials, calls) /\
     no_send calls).
Proof.
  apply (zero_failures_allowed (H := host_with alice_entry_clean)
           lockout_5_300 alice_bind alice_response
           reply_invalid_credentials 0 1514764800).
  - vm_compute. discriminate.
  - discriminate.
  - reflexivity.
  - reflexivity.
  - reflexivity.
Defined.

(** Outside the configurations of two positive integers: the
    configuration that [explockout_db_init] allocates has [maxtime] 0, and
    there the cap brings the waiting time for a count of 0 down to 0. *)
Lemma zero_failures_zero_maxtime :
  bi_private (snd (explockout_db_init overlay_info)) =
  Some {| basetime := 0; maxtime := 0 |} /\
  evaluate 0 0 0 = Returns 0 /\
  waiting_time {| basetime := 0; maxtime := 0 |} 0 = 0 /\
  evaluate 0 5 0 = Returns 0 /\
  waiting_time {| basetime := 5; maxtime := 0 |} 0 = 0.
Proof.
  repeat split.
Qed.

(** * Further properties of the code *)

(** ** The loops as a search *)

Lemma name_matches_fits (a : Attribute) :
  desc_fits a = true -> name_matches a = Returns (desc_matches a).
Proof.
unfold desc_fits, name_matches, copy_desc, desc_matches, desc_of.
intros Hfit. rewrite Hfit. reflexivity.
Qed.

Lemma name_matches_overflow (a : Attribute) :
  desc_fits a = false -> name_matches a = Undefined BufferOverflow.
Proof.
unfold desc_fits, name_matches, copy_desc. intros Hfit. rewrite Hfit.
reflexivity.
Qed.

Lemma removelast_cons2 (a b : Attribute) (l : list Attribute) :
  removelast (a :: b :: l) = a :: removelast (b :: l).
Proof. reflexivity. Qed.

(** X1.  On a list that is not empty and whose attributes before the final
    one have names that fit [desc], [countPwdFailureTime] returns the number
    of values of the first attribute, the final one left aside, whose name
    matches, and 0 when there is none: later attributes that match as well
    do not count. *)
Theorem countPwdFailureTime_first_match (attrs : list Attribute) :
  attrs <> [] ->
  Forall (fun a => desc_fits a = true) (removelast attrs) ->
  countPwdFailureTime attrs =
  Returns (match examined_match attrs with
           | Some a => to_int (a_numvals a)
           | None => 0
           end).
Proof.
unfold examined_match.
induction attrs as [| a l IH]; intros Hne Hfit; [contradiction |].
destruct l as [| b l]; [reflexivity |].
rewrite removelast_cons2 in Hfit |- *.
inversion Hfit as [| ? ? Ha Hrest]; subst.
rewrite countPwdFailureTime_step, (name_matches_fits a Ha).
cbn [bind find]. destruct (desc_matches a); [reflexivity |].
apply IH; [discriminate | exact Hrest].
Qed.

(** X2.  Under the same conditions [getLastPwdFailureTime] goes through the
    values of that same attribute and of no other, and leaves [val] alone
    when there is none. *)
Theorem getLastPwdFailureTime_first_match {P : Platform}
    (val : list ascii) (attrs : list Attribute) :
  attrs <> [] ->
  Forall (fun a => desc_fits a = true) (removelast attrs) ->
  getLastPwdFailureTime val attrs =
  match examined_match attrs with
  | Some a => check_values val (scanned_vals a)
  | None => Returns val
  end.
Proof.
unfold examined_match, scanned_vals.
induction attrs as [| a l IH]; intros Hne Hfit; [contradiction |].
destruct l as [| b l]; [reflexivity |].
rewrite removelast_cons2 in Hfit |- *.
inversion Hfit as [| ? ? Ha Hrest]; subst.
rewrite getLastPwdFailureTime_step, (name_matches_fits a Ha).
cbn [bind find]. destruct (desc_matches a); [reflexivity |].
apply IH; [discriminate | exact Hrest].
Qed.

(** ** Where the counting loop leaves defined behaviour *)

(** X3.  [countPwdFailureTime] leaves defined behaviour in two cases only:
    the list is empty (the first test dereferences NULL), or the loop
    reaches, before any match and before the final attribute, a name that
    does not fit [desc] with its terminator. *)
Theorem countPwdFailureTime_undefined_iff (attrs : list Attribute) (w : fault) :
  countPwdFailureTime attrs = Undefined w <->
  (attrs = [] /\ w = NullDereference) \/
  (w = BufferOverflow /\
   exists before a next rest,
     attrs = before ++ a :: next :: rest /\
     Forall (fun b => name_matches b = Returns false) before /\
     desc_fits a = false).
Proof.
split.
- induction attrs as [| a l IH]; intros E.
  + left. cbn in E. injection E as <-. split; reflexivity.
  + destruct l as [| b l]; [discriminate E |].
    rewrite countPwdFailureTime_step in E. right.
    destruct (desc_fits a) eqn:Ha.
    * rewrite (name_matches_fits a Ha) in E. cbn [bind] in E.
      destruct (desc_matches a) eqn:Hm; [discriminate E |].
      destruct (IH E) as [[Hnil _] | (Hw & before & a' & next & rest & Hl & Hb & Ha')];
        [discriminate Hnil |].
      split; [exact Hw |].
      exists (a :: before), a', next, rest. rewrite Hl.
      repeat split; [| exact Ha'].
      constructor; [| exact Hb].
      rewrite (name_matches_fits a Ha), Hm. reflexivity.
    * rewrite (name_matches_overflow a Ha) in E. cbn [bind] in E.
      injection E as <-. split; [reflexivity |].
      exists [], a, b, l. repeat split; [constructor | exact Ha].
- intros [[-> ->] | (-> & before & a & next & rest & -> & Hb & Ha)];
    [reflexivity |].
  rewrite countPwdFailureTime_skip by (assumption || discriminate).
  rewrite countPwdFailureTime_step, (name_matches_overflow a Ha).
  reflexivity.
Qed.

(** ** The match on the attribute's name *)

Lemma prefix_icase_iff (pattern : list ascii) :
  forall subject,
  prefix_icase pattern subject = true <->
  exists found rest,
    subject = found ++ rest /\ map tolower found = map tolower pattern.
Proof.
induction pattern as [| p pattern IH]; intros subject.
- split; [intros _; exists [], subject; split; reflexivity | reflexivity].
- destruct subject as [| s subject]; cbn [prefix_icase].
  + split; [discriminate |].
    intros (found & rest & Hs & Hf).
    destruct found; [discriminate Hf | discriminate Hs].
  + rewrite andb_true_iff, Ascii.eqb_eq, IH. split.
    * intros (Hp & found & rest & -> & Hf).
      exists (s :: found), rest. split; [reflexivity |].
      cbn [map]. rewrite Hp, Hf. reflexivity.
    * intros (found & rest & Hs & Hf).
      destruct found as [| c found]; [discriminate Hf |].
      cbn [map] in Hf. injection Hf as Hc Hf.
      cbn [app] in Hs. injection Hs as -> ->.
      split; [symmetry; exact Hc |].
      exists found, rest. split; [reflexivity | exact Hf].
Qed.

Lemma contains_icase_iff (pattern subject : list ascii) :
  contains_icase pattern subject = true <->
  exists before found rest,
    subject = before ++ found ++ rest /\
    map tolower found = map tolower pattern.
Proof.
induction subject as [| s subject IH]; cbn [contains_icase];
  rewrite orb_true_iff, prefix_icase_iff.
- split.
  + intros [(found & rest & Hs & Hf) | Hfalse]; [| discriminate Hfalse].
    exists [], found, rest. split; assumption.
  + intros (before & found & rest & Hs & Hf). left.
    destruct before; [| discriminate Hs].
    exists found, rest. split; assumption.
- rewrite IH. split.
  + intros [(found & rest & Hs & Hf) | (before & found & rest & Hs & Hf)].
    * exists [], found, rest. split; assumption.
    * exists (s :: before), found, rest. rewrite Hs. split; [reflexivity | exact Hf].
  + intros (before & found & rest & Hs & Hf).
    destruct before as [| c before].
    * left. exists found, rest. split; assumption.
    * right. cbn [app] in Hs. injection Hs as -> ->.
      exists before, found, rest. split; [reflexivity | exact Hf].
Qed.

(** X4.  An attribute's name matches exactly when, as [desc] holds it, it
    contains the fourteen letters of pwdFailureTime in a row, in any mix of
    upper and lower case: the match is neither anchored nor a comparison
    of whole names. *)
Theorem regexec_match_iff (desc : list ascii) :
  regexec desc = 0 <->
  exists before found rest,
    desc = before ++ found ++ rest /\ map tolower found = map tolower regex.
Proof.
rewrite <- contains_icase_iff. unfold regexec.
destruct (contains_icase regex desc); split; intros E;
  try reflexivity; discriminate E.
Qed.

(** ** Leaving the process *)

Lemma countPwdFailureTime_no_exit (attrs : list Attribute) :
  is_exit (countPwdFailureTime attrs) = false.
Proof.
induction attrs as [| a l IH]; [reflexivity |].
destruct l as [| b l]; [reflexivity |].
cbn [countPwdFailureTime].
destruct (copy_desc a) as [desc | st | w] eqn:E; cbn [bind].
- destruct (regexec desc =? 0); [reflexivity | exact IH].
- unfold copy_desc in E.
  destruct ((0 <=? to_int (bv_len (ad_cname (a_desc a)))) &&
            (to_int (bv_len (ad_cname (a_desc a))) <? ATTR_NAME_MAX_LEN));
    discriminate E.
- reflexivity.
Qed.

Lemma explockout_bind_response_no_exit {H : Host}
    (op : Operation) (rs : SlapReply) :
  is_exit (explockout_bind_response op rs) = false.
Proof.
unfold explockout_bind_response.
destruct (be_entry_get_rw op (o_req_ndn op)) as [[rc e] op1].
destruct (rc =? LDAP_SUCCESS); cbn [negb]; [| reflexivity].
change (read_lbi (with_bd_info op1 (bd_info op))) with (read_lbi op1).
unfold read_lbi. destruct (o_callback op1) as [| cb sc_next]; [reflexivity |].
destruct (sc_private cb); [| reflexivity]. cbn [bind].
pose proof (countPwdFailureTime_no_exit (e_attrs e)) as Hc.
destruct (countPwdFailureTime (e_attrs e)); [reflexivity | discriminate Hc | reflexivity].
Qed.

(** X5.  The response callback never calls [exit], and it returns in these
    cases only: the fetch of the entry fails; or the fetch succeeds, the
    first callback of the operation carries a configuration, and the
    counting loop returns.  In every other case it leaves defined
    behaviour. *)
Theorem explockout_bind_response_outcome {H : Host}
    (op : Operation) (rs : SlapReply) :
  is_exit (explockout_bind_response op rs) = false /\
  ((exists result, explockout_bind_response op rs = Returns result) <->
   fst (fst (be_entry_get_rw op (o_req_ndn op))) <> LDAP_SUCCESS \/
   ((exists lbi,
       read_lbi (snd (be_entry_get_rw op (o_req_ndn op))) = Returns lbi) /\
    exists n, countPwdFailureTime
                (e_attrs (snd (fst (be_entry_get_rw op (o_req_ndn op))))) =
              Returns n)).
Proof.
split; [apply explockout_bind_response_no_exit |].
split.
- intros [result E]. revert E. unfold explockout_bind_response.
  destruct (be_entry_get_rw op (o_req_ndn op)) as [[rc e] op1]. cbn [fst snd].
  destruct (Z.eqb_spec rc LDAP_SUCCESS) as [Hrc | Hrc]; cbn [negb];
    [| intros _; left; exact Hrc].
  change (read_lbi (with_bd_info op1 (bd_info op))) with (read_lbi op1).
  destruct (read_lbi op1) as [lbi | st | w]; cbn [bind]; try discriminate.
  destruct (countPwdFailureTime (e_attrs e)) as [n | st | w]; cbn [bind];
    try discriminate.
  intros _. right. split; [exists lbi | exists n]; reflexivity.
- intros Hcases.
  destruct (explockout_bind_response_returns op rs Hcases) as (op' & calls & E).
  eexists. exact E.
Qed.

Section Exit.

Context {P : Platform}.

Lemma check_values_exit_inv (vals : list berval) :
  forall (val : list ascii) (status : Z),
  check_values val vals = Exits status ->
  status = EXIT_FAILURE /\ Exists (fun v => value_len v < 14) vals.
Proof.
induction vals as [| v vals IH]; intros val status E; [discriminate E |].
cbn [check_values] in E.
destruct (check_value_cases val v) as [[Hlt Ev] | [Hge [val' Ev]]];
  rewrite Ev in E; cbn [bind] in E.
- injection E as <-. split; [reflexivity | left; exact Hlt].
- destruct (IH val' status E) as [Hs Hex]. split; [exact Hs | right; exact Hex].
Qed.

(** X6.  [getLastPwdFailureTime] terminates the process for one reason
    only: an attribute whose name matches holds a value shorter than 14
    characters; and the exit status is then [EXIT_FAILURE]. *)
Theorem getLastPwdFailureTime_exit_inv
    (val : list ascii) (attrs : list Attribute) (status : Z) :
  getLastPwdFailureTime val attrs = Exits status ->
  status = EXIT_FAILURE /\
  exists a v,
    In a attrs /\ name_matches a = Returns true /\
    In v (a_vals a) /\ value_len v < 14.
Proof.
induction attrs as [| a l IH]; intros E; [discriminate E |].
destruct l as [| b l]; [discriminate E |].
rewrite getLastPwdFailureTime_step in E.
destruct (name_matches a) as [[|] | st | w] eqn:Hm; cbn [bind] in E;
  try discriminate E.
- apply check_values_exit_inv in E. destruct E as [Hs Hex].
  split; [exact Hs |]. apply Exists_exists in Hex.
  destruct Hex as (v & Hin & Hv).
  exists a, v. repeat split; try assumption; [left; reflexivity |].
  rewrite <- (firstn_skipn (Z.to_nat (to_int (a_numvals a))) (a_vals a)).
  apply in_or_app. left. exact Hin.
- destruct (IH E) as (Hs & a' & v & Hin & Ha' & Hv & Hlen).
  split; [exact Hs |]. exists a', v. repeat split; try assumption.
  right. exact Hin.
- unfold name_matches, copy_desc in Hm.
  destruct ((0 <=? to_int (bv_len (ad_cname (a_desc a)))) &&
            (to_int (bv_len (ad_cname (a_desc a))) <? ATTR_NAME_MAX_LEN));
    discriminate Hm.
Qed.

End Exit.

(** ** The host calls of the response callback *)

(** X11.  Whenever the response callback returns, it has fetched the entry
    once, under the name of the request, and it has released the entry it
    was given exactly when the fetch succeeded: nothing is released after a
    fetch that failed, and nothing that was fetched is kept. *)
Theorem explockout_bind_response_calls {H : Host}
    (op : Operation) (rs : SlapReply)
    (r : Z) (op' : Operation) (rs' : SlapReply) (calls : list host_call) :
  explockout_bind_response op rs = Returns (r, op', rs', calls) ->
  calls =
  Call_be_entry_get_rw (o_req_ndn op) ::
  (if fst (fst (be_entry_get_rw op (o_req_ndn op))) =? LDAP_SUCCESS
   then [Call_be_entry_release_r (snd (fst (be_entry_get_rw op (o_req_ndn op))))]
   else []).
Proof.
unfold explockout_bind_response.
destruct (be_entry_get_rw op (o_req_ndn op)) as [[rc e] op1]. cbn [fst snd].
destruct (rc =? LDAP_SUCCESS); cbn [negb].
- destruct (read_lbi (with_bd_info op1 (bd_info op))); cbn [bind];
    try discriminate.
  destruct (countPwdFailureTime (e_attrs e)); cbn [bind]; intros E;
    try discriminate E.
  injection E as _ _ _ <-. reflexivity.
- intros E. injection E as _ _ _ <-. reflexivity.
Qed.

(** ** What a stored value contributes *)

Lemma length_strncpy_chars (n : nat) :
  forall src, List.length (strncpy_chars src n) = n.
Proof.
induction n as [| n IH]; intros src; [reflexivity |].
cbn [strncpy_chars]. destruct src as [| c src].
- cbn [List.length]. rewrite IH. reflexivity.
- destruct (Ascii.eqb c NUL); cbn [List.length]; rewrite IH; reflexivity.
Qed.

Lemma strncpy_chars_firstn (n : nat) :
  forall (m : nat) (src : list ascii),
  (n <= m)%nat -> strncpy_chars (firstn m src) n = strncpy_chars src n.
Proof.
induction n as [| n IH]; intros m src Hnm; [reflexivity |].
destruct m as [| m]; [lia |].
destruct src as [| c src]; [reflexivity |].
cbn [firstn strncpy_chars].
destruct (Ascii.eqb c NUL); [reflexivity |].
rewrite IH by lia. reflexivity.
Qed.

Lemma store_strncpy_buffer (val src : list ascii) (n : nat) :
  List.length val = S n ->
  store (strncpy val src n) n NUL = strncpy_chars src n ++ [NUL].
Proof.
intros Hval. unfold store, strncpy.
pose proof (length_strncpy_chars n src) as Hn.
rewrite firstn_app, Hn, Nat.sub_diag, firstn_all2 by lia.
cbn [firstn]. rewrite app_nil_r.
rewrite skipn_all2; [reflexivity |].
rewrite length_app, length_skipn, Hn, Hval. lia.
Qed.

Section StoredValue.

Context {P : Platform}.

Lemma value_is_superior_firstn (n : nat) :
  forall (j m : nat) (value_val val : list ascii),
  (j + n <= m)%nat ->
  value_is_superior (firstn m value_val) val j n =
  value_is_superior value_val val j n.
Proof.
induction n as [| n IH]; intros j m value_val val Hm; [reflexivity |].
cbn [value_is_superior]. rewrite nth_firstn.
destruct (Nat.ltb_spec j m); [| lia].
rewrite IH by lia. reflexivity.
Qed.

(** X7.  Of a stored value the code uses the first 14 characters only: two
    values of 14 characters or more that agree on those have the same
    effect on [val], whatever follows in either. *)
Theorem check_value_first_14 (val : list ascii) (v v' : berval) :
  14 <= value_len v ->
  14 <= value_len v' ->
  firstn 14 (bv_val v) = firstn 14 (bv_val v') ->
  check_value val v = check_value val v'.
Proof.
intros Hv Hv' Heq. unfold check_value, strncpy.
destruct (Z.ltb_spec (value_len v) 14); [lia |].
destruct (Z.ltb_spec (value_len v') 14); [lia |].
rewrite <- (value_is_superior_firstn 14 0 14 (bv_val v)) by lia.
rewrite <- (value_is_superior_firstn 14 0 14 (bv_val v')) by lia.
rewrite <- (strncpy_chars_firstn 14 14 (bv_val v)) by lia.
rewrite <- (strncpy_chars_firstn 14 14 (bv_val v')) by lia.
rewrite Heq. reflexivity.
Qed.

Lemma check_value_result (val : list ascii) (v : berval) (val' : list ascii) :
  List.length val = 15%nat ->
  check_value val v = Returns val' ->
  val' = val \/ val' = strncpy_chars (bv_val v) 14 ++ [NUL].
Proof.
intros Hlen. unfold check_value.
destruct (value_len v <? 14); [discriminate |].
destruct (value_is_superior (bv_val v) val 0 14); intros E; injection E as <-.
- right. apply store_strncpy_buffer. exact Hlen.
- left. reflexivity.
Qed.

(** X8.  With [val] an array of 15 characters, what the loop over the
    values leaves in it is again 15 characters: either [val] as it was on
    entry, or the first 14 characters of one of the values, cut at its
    first NUL and padded with NULs, followed by the terminator. *)
Theorem check_values_result (vals : list berval) :
  forall val val' : list ascii,
  List.length val = 15%nat ->
  check_values val vals = Returns val' ->
  List.length val' = 15%nat /\
  (val' = val \/
   exists v, In v vals /\ val' = strncpy_chars (bv_val v) 14 ++ [NUL]).
Proof.
induction vals as [| v vals IH]; intros val val' Hlen E.
- injection E as <-. split; [exact Hlen | left; reflexivity].
- cbn [check_values] in E.
  destruct (check_value val v) as [val1 | st | w] eqn:Ev; cbn [bind] in E;
    try discriminate E.
  pose proof (check_value_result val v val1 Hlen Ev) as Hv.
  assert (Hlen1 : List.length val1 = 15%nat).
  { destruct Hv as [-> | ->]; [exact Hlen |].
    rewrite length_app, length_strncpy_chars. reflexivity. }
  destruct (IH val1 val' Hlen1 E) as [Hl [-> | (v' & Hin & ->)]].
  + split; [exact Hl |]. destruct Hv as [-> | ->].
    * left. reflexivity.
    * right. exists v. split; [left; reflexivity | reflexivity].
  + split; [exact Hl |]. right. exists v'. split; [right; exact Hin | reflexivity].
Qed.

End StoredValue.

(** ** The signedness of char *)

Lemma char_val_7bit {P : Platform} (c : ascii) :
  is_7bit c = true -> char_val c = Z.of_N (N_of_ascii c).
Proof.
unfold is_7bit, char_val. intros Hc. apply N.ltb_lt in Hc.
destruct (Z.leb_spec 128 (Z.of_N (N_of_ascii c))); [lia |].
rewrite andb_false_r. reflexivity.
Qed.

Lemma is_7bit_nth (l : list ascii) :
  all_7bit l -> forall j, is_7bit (nth j l NUL) = true.
Proof.
induction 1 as [| c l Hc _ IH]; intros [| j]; try reflexivity.
- exact Hc.
- apply IH.
Qed.

Lemma all_7bit_firstn (n : nat) (l : list ascii) :
  all_7bit l -> all_7bit (firstn n l).
Proof.
intros Hl. rewrite <- (firstn_skipn n l) in Hl.
apply Forall_app in Hl. tauto.
Qed.

Lemma all_7bit_skipn (n : nat) (l : list ascii) :
  all_7bit l -> all_7bit (skipn n l).
Proof.
intros Hl. rewrite <- (firstn_skipn n l) in Hl.
apply Forall_app in Hl. tauto.
Qed.

Lemma all_7bit_strncpy_chars (n : nat) :
  forall src, all_7bit src -> all_7bit (strncpy_chars src n).
Proof.
induction n as [| n IH]; intros src Hsrc; [constructor |].
cbn [strncpy_chars]. destruct src as [| c src].
- constructor; [reflexivity | apply IH; constructor].
- inversion Hsrc as [| ? ? Hc Hrest]; subst.
  destruct (Ascii.eqb c NUL); constructor;
    try reflexivity; try exact Hc; apply IH; (constructor || exact Hrest).
Qed.

Lemma value_is_superior_signedness (P1 P2 : Platform)
    (value_val val : list ascii) (n : nat) :
  all_7bit value_val -> all_7bit val ->
  forall j,
  value_is_superior (P := P1) value_val val j n =
  value_is_superior (P := P2) value_val val j n.
Proof.
intros Hv Hval. induction n as [| n IH]; intros j; [reflexivity |].
cbn [value_is_superior].
rewrite !(char_val_7bit (P := P1)), !(char_val_7bit (P := P2))
  by (apply is_7bit_nth; assumption).
rewrite IH. reflexivity.
Qed.

Lemma check_value_signedness (P1 P2 : Platform) (val : list ascii) (v : berval) :
  all_7bit val -> all_7bit (bv_val v) ->
  check_value (P := P1) val v = check_value (P := P2) val v /\
  forall val', check_value (P := P1) val v = Returns val' -> all_7bit val'.
Proof.
intros Hval Hv. unfold check_value.
rewrite (value_is_superior_signedness P1 P2) by assumption.
split; [reflexivity |].
intros val'. destruct (value_len v <? 14); [discriminate |].
destruct (value_is_superior (bv_val v) val 0 14); intros E; injection E as <-;
  [| exact Hval].
assert (Hcopy : all_7bit (strncpy val (bv_val v) 14)).
{ unfold strncpy. apply Forall_app. split.
  - apply all_7bit_strncpy_chars. exact Hv.
  - apply all_7bit_skipn. exact Hval. }
unfold store. apply Forall_app. split.
- apply all_7bit_firstn. exact Hcopy.
- constructor; [reflexivity | apply all_7bit_skipn; exact Hcopy].
Qed.

Lemma check_values_signedness (P1 P2 : Platform) (vals : list berval) :
  Forall (fun v => all_7bit (bv_val v)) vals ->
  forall val, all_7bit val ->
  check_values (P := P1) val vals = check_values (P := P2) val vals.
Proof.
induction 1 as [| v vals Hv _ IH]; intros val Hval; [reflexivity |].
cbn [check_values].
destruct (check_value_signedness P1 P2 val v Hval Hv) as [Heq Hinv].
rewrite <- Heq.
destruct (check_value (P := P1) val v) as [val1 | st | w]; cbn [bind];
  try reflexivity.
apply IH. apply Hinv. reflexivity.
Qed.

(** X12.  When [val] and the stored values hold characters of the 7-bit
    range only, as digits are, [getLastPwdFailureTime] gives the same
    outcome whether plain [char] is signed or unsigned. *)
Theorem getLastPwdFailureTime_signedness (P1 P2 : Platform)
    (val : list ascii) (attrs : list Attribute) :
  all_7bit val ->
  Forall (fun a => Forall (fun v => all_7bit (bv_val v)) (a_vals a)) attrs ->
  getLastPwdFailureTime (P := P1) val attrs =
  getLastPwdFailureTime (P := P2) val attrs.
Proof.
intros Hval. induction 1 as [| a l Ha _ IH]; [reflexivity |].
destruct l as [| b l]; [reflexivity |].
rewrite !getLastPwdFailureTime_step.
destruct (name_matches a) as [[|] | st | w]; cbn [bind]; try reflexivity.
- apply check_values_signedness; [| exact Hval].
  rewrite <- (firstn_skipn (Z.to_nat (to_int (a_numvals a))) (a_vals a)) in Ha.
  apply Forall_app in Ha. tauto.
- exact IH.
Qed.

(** ** The further properties on the sample data *)

Lemma countPwdFailureTime_first_match_witness :
  countPwdFailureTime (e_attrs alice_entry_two_matches) = Returns 1.
Proof.
  apply (countPwdFailureTime_first_match (e_attrs alice_entry_two_matches)).
  - discriminate.
  - repeat constructor.
Defined.

Lemma getLastPwdFailureTime_first_match_witness :
  getLastPwdFailureTime (P := signed_char_platform) val_zeros
    (e_attrs alice_entry_two_matches) =
  check_values (P := signed_char_platform) val_zeros
    (a_vals failures_with_option).
Proof.
  apply (getLastPwdFailureTime_first_match (P := signed_char_platform)
           val_zeros (e_attrs alice_entry_two_matches)).
  - discriminate.
  - repeat constructor.
Defined.

Lemma getLastPwdFailureTime_exit_inv_witness :
  EXIT_FAILURE = EXIT_FAILURE /\
  exists a v,
    In a [cn_alice; short_failure; objectClass_person] /\
    name_matches a = Returns true /\
    In v (a_vals a) /\ value_len v < 14.
Proof.
  apply (getLastPwdFailureTime_exit_inv (P := signed_char_platform)
           val_zeros [cn_alice; short_failure; objectClass_person] EXIT_FAILURE).
  reflexivity.
Defined.

Lemma check_value_first_14_witness :
  check_value (P := signed_char_platform) val_zeros "20180101000001"%string =
  check_value (P := signed_char_platform) val_zeros
    "20180101000001.5Z and more"%string.
Proof.
  apply (check_value_first_14 (P := signed_char_platform) val_zeros
           "20180101000001"%string "20180101000001.5Z and more"%string).
  - vm_compute. discriminate.
  - vm_compute. discriminate.
  - reflexivity.
Defined.

Lemma check_values_result_witness :
  List.length (list_ascii_of_string "20180101000001" ++ [NUL]) = 15%nat /\
  (list_ascii_of_string "20180101000001" ++ [NUL] = val_zeros \/
   exists v,
     In v (a_vals two_failures) /\
     list_ascii_of_string "20180101000001" ++ [NUL] =
     strncpy_chars (bv_val v) 14 ++ [NUL]).
Proof.
  apply (check_values_result (P := signed_char_platform)
           (a_vals two_failures) val_zeros).
  - reflexivity.
  - reflexivity.
Defined.

Lemma getLastPwdFailureTime_zero_initialised_witness :
  exists latest t',
    getLastPwdFailureTime (P := signed_char_platform)
      (repeat NUL 14 ++ ["x"%char])
      ([cn_alice] ++ two_failures :: objectClass_person :: []) =
    Returns (latest ++ [t']) /\
    In latest (map bv_val (a_vals two_failures)) /\
    Forall (fun v => lex_le (P := signed_char_platform) (bv_val v) latest = true)
      (a_vals two_failures).
Proof.
  apply (getLastPwdFailureTime_zero_initialised (P := signed_char_platform)
           "x"%char [cn_alice] two_failures objectClass_person []).
  - repeat constructor.
  - reflexivity.
  - vm_compute. discriminate.
  - repeat constructor.
  - discriminate.
Defined.

Lemma check_values_keep_garbage_witness :
  check_values (P := unsigned_char_platform) val_nines (a_vals two_failures) =
  Returns val_nines.
Proof.
  apply (check_values_keep_garbage (P := unsigned_char_platform)
           val_nines (a_vals two_failures)).
  repeat constructor; vm_compute; (discriminate || reflexivity).
Defined.

Lemma explockout_bind_response_calls_witness :
  [Call_be_entry_get_rw (o_req_ndn alice_response);
   Call_be_entry_release_r alice_entry] =
  [Call_be_entry_get_rw (o_req_ndn alice_response);
   Call_be_entry_release_r alice_entry].
Proof.
  apply (explockout_bind_response_calls (H := host_with alice_entry)
           alice_response reply_invalid_credentials
           SLAP_CB_CONTINUE alice_response reply_invalid_credentials).
  reflexivity.
Defined.

Lemma getLastPwdFailureTime_signedness_witness :
  getLastPwdFailureTime (P := signed_char_platform) val_nines
    (e_attrs alice_entry) =
  getLastPwdFailureTime (P := unsigned_char_platform) val_nines
    (e_attrs alice_entry).
Proof.
  apply (getLastPwdFailureTime_signedness signed_char_platform
           unsigned_char_platform val_nines (e_attrs alice_entry)).
  - repeat constructor.
  - repeat constructor.
Defined.

(** ** The running maximum over well-formed values *)

(** For a name of at most [INT_MAX] characters, to fit [desc] is to have
    fewer than 150 characters. *)
Lemma desc_fits_short_name (a : Attribute) :
  bv_len (ad_cname (a_desc a)) <= INT_MAX ->
  (desc_fits a = true <-> bv_len (ad_cname (a_desc a)) < ATTR_NAME_MAX_LEN).
Proof.
  intros Hlen. unfold desc_fits.
  rewrite to_int_small by (unfold bv_len in *; lia).
  rewrite andb_true_iff, Z.leb_le, Z.ltb_lt. unfold bv_len. lia.
Qed.

(** X13.  With 14 characters and one more in [val], and values that are
    all 14 digits, the loop over the values keeps a running maximum: it
    ends with [val] holding 14 characters that are not below what [val]
    held on entry nor below any value, and that are what it held on entry
    or one of the values. *)
Theorem check_values_running_maximum {P : Platform}
    (key : list ascii) (t : ascii) (vals : list berval) :
  List.length key = 14%nat ->
  Forall (fun v => parse_accepts v = true) vals ->
  exists latest t',
    check_values (key ++ [t]) vals = Returns (latest ++ [t']) /\
    lex_le key latest = true /\
    Forall (fun v => lex_le (bv_val v) latest = true) vals /\
    (latest = key \/ In latest (map bv_val vals)).
Proof.
  intros Hkey Hvals.
  destruct (check_values_fold vals key t Hkey Hvals) as [t' E].
  exists (fold_left later_of vals key), t'.
  split; [exact E | apply fold_later_of_spec].
Qed.

Lemma check_values_running_maximum_witness :
  exists latest t',
    check_values (P := signed_char_platform)
      (list_ascii_of_string "20180101000000" ++ ["x"%char])
      (a_vals two_failures) = Returns (latest ++ [t']) /\
    lex_le (P := signed_char_platform)
      (list_ascii_of_string "20180101000000") latest = true /\
    Forall (fun v => lex_le (P := signed_char_platform) (bv_val v) latest = true)
      (a_vals two_failures) /\
    (latest = list_ascii_of_string "20180101000000" \/
     In latest (map bv_val (a_vals two_failures))).
Proof.
  apply (check_values_running_maximum (P := signed_char_platform)
           (list_ascii_of_string "20180101000000") "x"%char
           (a_vals two_failures)).
  - reflexivity.
  - repeat constructor.
Defined.
